(** * LineFollower: the control pipeline of [src/line_follower.c]

    A shallow embedding of the estimator [read_qrt_line], of the controller
    and motor stage [handle_move], and of the helpers they call.

    Target conventions (avr-gcc, ATmega): [int] and [unsigned int] are 16
    bits wide, [long] and [unsigned long] are 32 bits wide, [uint8_t] is 8
    bits wide, [float] is IEEE-754 binary32.  Integers are carried as [Z]
    and every narrowing or wrap-around of the C code is written out with the
    conversions of module [CInt]. *)

From Stdlib Require Import ZArith List Lia Bool.
From Stdlib Require Import Floats.SpecFloat.
Import ListNotations.

Local Open Scope Z_scope.

(** ** Machine integers *)

Module CInt.

Definition to_uint8 (z : Z) : Z := z mod 2 ^ 8.
Definition to_uint16 (z : Z) : Z := z mod 2 ^ 16.
Definition to_uint32 (z : Z) : Z := z mod 2 ^ 32.

(** Two's complement reinterpretation, as gcc converts to a signed type. *)
Definition to_int16 (z : Z) : Z := (z + 2 ^ 15) mod 2 ^ 16 - 2 ^ 15.
Definition to_int32 (z : Z) : Z := (z + 2 ^ 31) mod 2 ^ 32 - 2 ^ 31.

(** Unsigned division; a zero divisor has no result. *)
Definition udiv (a b : Z) : option Z :=
  if b =? 0 then None else Some (a / b).

End CInt.

Import CInt.

(** ** Single precision floats *)

Module F32.

Definition prec : Z := 24.
Definition emax : Z := 128.

Definition float : Type := spec_float.

Definition add : float -> float -> float := SFadd prec emax.
Definition mul : float -> float -> float := SFmul prec emax.
Definition div : float -> float -> float := SFdiv prec emax.

(** Integer to float conversion, rounding to nearest even. *)
Definition of_Z (z : Z) : float := binary_normalize prec emax z 0 false.

(** The float nearest to the decimal literal [num / den]; both arguments
    are exactly representable for the three gains below. *)
Definition of_decimal (num den : Z) : float := div (of_Z num) (of_Z den).

(** Float to integer conversion: truncation toward zero.  The controller
    only converts finite values; the other cases are given 0. *)
Definition to_Z (f : float) : Z :=
  match f with
  | S754_finite s m e =>
      let v := if 0 <=? e then Zpos m * 2 ^ e else Zpos m / 2 ^ (- e) in
      if s then - v else v
  | _ => 0
  end.

End F32.

(** ** Configuration constants (lines 21-40, 67-69) *)

Definition LEFT_MAX_SPEED : Z := 220.
Definition RIGHT_MAX_SPEED : Z := 210.
Definition SENSOR_NUM : Z := 6.
Definition NOISE_THRESHOLD : Z := 50.
Definition ON_TRACK_VALUE : Z := 200.
Definition BASE_SPEED : Z := 175.
Definition MAX_SPEED : Z := 240.
Definition HEUR_OFFSET : Z := 1000.
Definition MIDDLE_ERROR : Z := 2500.
Definition INTEGRAL_RESET_ITER : Z := 125.

Definition KP : F32.float := F32.of_decimal 515 10000.
Definition KD : F32.float := F32.of_decimal 35 100000.
Definition KI : F32.float := F32.of_decimal 267 100000000.

(** Modelled from the spec: the range of one analog conversion.  The [ADC]
    data register comes from [<avr/io.h>], which is not part of the
    sources; the spec gives the sensor resolution as 10 bits, 0-1023. *)
Definition ADC_MAX : Z := 1023.

(** ** clamp (lines 74-79) *)

Definition clamp (value min max : Z) : Z :=
  if value <? min then min
  else if value >? max then max
  else to_uint8 value.

(** ** Sensor acquisition (lines 88-106)

    One control cycle samples every channel once; [adc] lists the
    conversion results of the cycle, channel 0 first. *)

Definition ADC_get (adc : list Z) (channel : nat) : Z := nth channel adc 0.

Definition read_line_input (adc : list Z) : list Z :=
  map (ADC_get adc) (seq 0 (Z.to_nat SENSOR_NUM)).

(** A sensor vector as the hardware delivers it. *)
Definition SensorReading (adc : list Z) : Prop :=
  length adc = Z.to_nat SENSOR_NUM /\ Forall (fun v => 0 <= v <= ADC_MAX) adc.

(** ** read_qrt_line (lines 159-204) *)

(** The locals of the scanning loop. *)
Record scan := mkScan {
  on_track : bool;
  average : Z;       (* unsigned long *)
  sum : Z;           (* unsigned int *)
  heur_offset : Z    (* unsigned int *)
}.

Definition scan_init : scan :=
  {| on_track := false; average := 0; sum := 0; heur_offset := 0 |}.

(** The body of the loop of lines 170-186, once [value] is fetched. *)
Definition scan_step (value : Z) (s : scan) : scan :=
  let counted := value >? NOISE_THRESHOLD in
  {| on_track := if value >? ON_TRACK_VALUE then true else on_track s;
     average :=
       if counted
       then to_uint32 (average s + to_int32 (value * heur_offset s))
       else average s;
     sum := if counted then to_uint16 (sum s + value) else sum s;
     heur_offset := to_uint16 (heur_offset s + HEUR_OFFSET) |}.

Definition scan_body (values : list Z) (s : scan) (i : nat) : scan :=
  scan_step (nth i values 0) s.

Definition scan_loop (values : list Z) : scan :=
  fold_left (scan_body values) (seq 0 (Z.to_nat SENSOR_NUM)) scan_init.

(** What one call of the estimator leaves behind: the returned [int], the
    static [last_value] after the call, and the divisions it executed
    (dividend and divisor, in order). *)
Record qrt := mkQrt {
  qrt_return : Z;
  qrt_last_value : Z;
  qrt_divisions : list (Z * Z)
}.

Definition read_qrt_line (adc : list Z) (last_value : Z) : option qrt :=
  let values := read_line_input adc in
  let s := scan_loop values in
  if negb (on_track s) then
    if last_value <? (SENSOR_NUM - 1) * Z.shiftr HEUR_OFFSET 1
    then Some (mkQrt 0 last_value [])
    else Some (mkQrt ((SENSOR_NUM - 1) * HEUR_OFFSET) last_value [])
  else
    match udiv (average s) (sum s) with
    | None => None
    | Some q =>
        let last_value' := to_int32 q in
        Some (mkQrt (to_int16 last_value') last_value'
                [(average s, sum s)])
    end.

(** ** handle_move (lines 206-252) *)

(** The statics of the two functions. *)
Record statics := mkStatics {
  last_value : Z;       (* read_qrt_line: static long *)
  last_error : Z;       (* handle_move: static int *)
  integral : Z;         (* handle_move: static long *)
  reset_integral : Z    (* handle_move: static int *)
}.

Definition statics_init : statics :=
  {| last_value := 0; last_error := 0; integral := 0; reset_integral := 0 |}.

(** The four compare registers written by the motor setters
    (lines 142-152). *)
Record pwm := mkPwm { OCR0A : Z; OCR0B : Z; OCR2A : Z; OCR2B : Z }.

Definition left_duty (p : pwm) : Z := OCR0A p.
Definition right_duty (p : pwm) : Z := OCR2B p.

(** Lines 222-223: [unsigned int position = ...; int error = position -
    MIDDLE_ERROR;]. *)
Definition narrow_position (ret : Z) : Z := to_uint16 ret.

Definition position_error (position : Z) : Z :=
  to_int16 (to_uint16 (position - to_uint16 MIDDLE_ERROR)).

(** Line 227.  The operands are converted to [float], the sum is formed
    left to right in [float] and truncated to [int]. *)
Definition pid_of (error integral last_error : Z) : Z :=
  to_int16
    (F32.to_Z
       (F32.add
          (F32.add (F32.mul KP (F32.of_Z error))
                   (F32.mul KI (F32.of_Z integral)))
          (F32.mul KD (F32.of_Z (to_int16 (error - last_error)))))).

(** Lines 229-236. *)
Definition drive (pid : Z) : pwm :=
  let left_speed := to_int16 (BASE_SPEED + pid) in
  let right_speed := to_int16 (BASE_SPEED - pid) in
  let left_speed := clamp left_speed 0 MAX_SPEED in
  let right_speed := clamp right_speed 0 MAX_SPEED in
  {| OCR0A := to_uint8 left_speed; OCR0B := 0;
     OCR2A := 0; OCR2B := to_uint8 right_speed |}.

(** What one call exposes besides the registers: the locals [error] and
    [pid], kept for the statements below. *)
Record cycle := mkCycle {
  cy_statics : statics;
  cy_pwm : pwm;
  cy_position : Z;
  cy_error : Z;
  cy_pid : Z
}.

Definition handle_move (adc : list Z) (st : statics) : option cycle :=
  let '(reset_integral0, integral0) :=
    if reset_integral st =? INTEGRAL_RESET_ITER
    then (0, 0)
    else (reset_integral st, integral st) in
  match read_qrt_line adc (last_value st) with
  | None => None
  | Some r =>
      let position := narrow_position (qrt_return r) in
      let error := position_error position in
      let integral1 := to_int32 (integral0 + error) in
      let pid := pid_of error integral1 (last_error st) in
      Some {| cy_statics :=
                {| last_value := qrt_last_value r;
                   last_error := last_error st;
                   integral := integral1;
                   reset_integral := to_int16 (reset_integral0 + 1) |};
              cy_pwm := drive pid;
              cy_position := position;
              cy_error := error;
              cy_pid := pid |}
  end.

(** ** The control loop of [main] (lines 272-290)

    [main_loop cycles st] runs one [handle_move] per element of [cycles];
    an element lists the conversions delivered to the sampling done inside
    [read_qrt_line] (the sampling of line 274 only feeds the debug print
    and is overwritten). *)
Fixpoint main_loop (cycles : list (list Z)) (st : statics) : option statics :=
  match cycles with
  | [] => Some st
  | adc :: rest =>
      match handle_move adc st with
      | None => None
      | Some c => main_loop rest (cy_statics c)
      end
  end.

(** Successive calls of the estimator alone. *)
Fixpoint estimator_loop (cycles : list (list Z)) (lv : Z) : option Z :=
  match cycles with
  | [] => Some lv
  | adc :: rest =>
      match read_qrt_line adc lv with
      | None => None
      | Some r => estimator_loop rest (qrt_last_value r)
      end
  end.

(** ** The weighted average in the words of the specification

    Sensor [i] has weight [i * HEUR_OFFSET]; the readings that qualify for
    the average are those strictly above [NOISE_THRESHOLD]. *)

Fixpoint indexed_from (k : Z) (vs : list Z) : list (Z * Z) :=
  match vs with
  | [] => []
  | v :: rest => (k, v) :: indexed_from (k + 1) rest
  end.

Definition qualifying_from (k : Z) (vs : list Z) : list (Z * Z) :=
  filter (fun iv => snd iv >? NOISE_THRESHOLD) (indexed_from k vs).

Definition Zsum (l : list Z) : Z := fold_right Z.add 0 l.

Definition weighted_total_from (k : Z) (vs : list Z) : Z :=
  Zsum (map (fun iv => fst iv * HEUR_OFFSET * snd iv) (qualifying_from k vs)).

Definition value_total_from (k : Z) (vs : list Z) : Z :=
  Zsum (map snd (qualifying_from k vs)).

Definition weighted_average (vs : list Z) : Z :=
  weighted_total_from 0 vs / value_total_from 0 vs.

(** The boundary estimate of a track-loss cycle. *)
Definition boundary_estimate (stored : Z) : Z :=
  if stored <? (SENSOR_NUM - 1) * HEUR_OFFSET / 2
  then 0
  else (SENSOR_NUM - 1) * HEUR_OFFSET.

(** No reading of the cycle exceeds [ON_TRACK_VALUE]. *)
Definition track_lost (adc : list Z) : Prop :=
  Forall (fun v => v <= ON_TRACK_VALUE) adc.

(** At least one reading is strictly above [ON_TRACK_VALUE]. *)
Definition track_seen (adc : list Z) : Prop :=
  Exists (fun v => ON_TRACK_VALUE < v) adc.

(** The cycle counter after [n] calls from the initial statics. *)
Definition counter_after (n : Z) : Z :=
  if n =? 0 then 0 else (n - 1) mod INTEGRAL_RESET_ITER + 1.

(** A reading as the averaging sees it: at or below [NOISE_THRESHOLD] it
    counts for nothing. *)
Definition denoise (v : Z) : Z := if v >? NOISE_THRESHOLD then v else 0.

(** ** The motor setters on their own (lines 142-152)

    Each setter writes the two compare registers of its timer and leaves
    the other timer alone. *)
Definition left_motor_set (strength : Z) (p : pwm) : pwm :=
  {| OCR0A := to_uint8 strength; OCR0B := 0;
     OCR2A := OCR2A p; OCR2B := OCR2B p |}.

Definition right_motor_set (strength : Z) (p : pwm) : pwm :=
  {| OCR0A := OCR0A p; OCR0B := OCR0B p;
     OCR2A := 0; OCR2B := to_uint8 strength |}.

(** The windup bound carried along a run. *)
Definition integral_bounded (st : statics) : Prop :=
  0 <= reset_integral st <= INTEGRAL_RESET_ITER
  /\ Z.abs (integral st) <= MIDDLE_ERROR * reset_integral st.

(** ** engine_init (lines 108-140)

    The bit numbers come from [<avr/io.h>], which is not part of the
    sources: they are taken as parameters. *)
Record io_bits := mkIoBits {
  COM0A1 : Z; COM0A0 : Z; COM0B1 : Z; COM0B0 : Z; WGM01 : Z; WGM00 : Z;
  COM2A1 : Z; COM2A0 : Z; COM2B1 : Z; COM2B0 : Z; WGM21 : Z; WGM20 : Z;
  CS01 : Z; CS21 : Z;
  PD6 : Z; PD7 : Z; PB3 : Z; PB4 : Z
}.

(** The 8-bit registers the function touches. *)
Record timer_io := mkTimerIo {
  TCCR0A : Z; TCCR0B : Z; TCCR2A : Z; TCCR2B : Z;
  DDRD : Z; PORTD : Z; DDRB : Z; PORTB : Z;
  ocr : pwm
}.

(** [reg |= (1 << n)] and [reg &= ~(1 << n)] on an 8-bit register. *)
Definition or_bit (reg n : Z) : Z := to_uint8 (Z.lor reg (Z.shiftl 1 n)).
Definition clear_bit (reg n : Z) : Z :=
  to_uint8 (Z.land reg (Z.lnot (Z.shiftl 1 n))).

Definition engine_init (h : io_bits) (t : timer_io) : timer_io :=
  let tccr0a :=
    to_uint8 (Z.lor (Z.lor (Z.lor (Z.shiftl 1 (COM0A1 h))
                                  (Z.shiftl 1 (COM0A0 h)))
                           (Z.shiftl 1 (COM0B1 h)))
                    (Z.shiftl 1 (COM0B0 h))) in
  let tccr0a :=
    to_uint8 (Z.lor tccr0a
                (Z.lor (Z.shiftl 1 (WGM01 h)) (Z.shiftl 1 (WGM00 h)))) in
  let tccr2a :=
    to_uint8 (Z.lor (Z.lor (Z.lor (Z.shiftl 1 (COM2A1 h))
                                  (Z.shiftl 1 (COM2A0 h)))
                           (Z.shiftl 1 (COM2B1 h)))
                    (Z.shiftl 1 (COM2B0 h))) in
  let tccr2a :=
    to_uint8 (Z.lor tccr2a
                (Z.lor (Z.shiftl 1 (WGM21 h)) (Z.shiftl 1 (WGM20 h)))) in
  {| TCCR0A := tccr0a;
     TCCR0B := to_uint8 (Z.shiftl 1 (CS01 h));
     TCCR2A := tccr2a;
     TCCR2B := to_uint8 (Z.shiftl 1 (CS21 h));
     DDRD := or_bit (or_bit (DDRD t) (PD6 h)) (PD7 h);
     PORTD := clear_bit (clear_bit (PORTD t) (PD6 h)) (PD7 h);
     DDRB := or_bit (or_bit (DDRB t) (PB3 h)) (PB4 h);
     PORTB := clear_bit (clear_bit (PORTB t) (PB3 h)) (PB4 h);
     ocr := {| OCR0A := 0; OCR0B := 0; OCR2A := 0; OCR2B := 0 |} |}.

(** The bit numbers name bits of an 8-bit register. *)
Definition bit_number (n : Z) : Prop := 0 <= n < 8.

Definition port_bits_valid (h : io_bits) : Prop :=
  bit_number (PD6 h) /\ bit_number (PD7 h)
  /\ bit_number (PB3 h) /\ bit_number (PB4 h).

Definition timer_bits_valid (h : io_bits) : Prop :=
  Forall bit_number
    [COM0A1 h; COM0A0 h; COM0B1 h; COM0B0 h; WGM01 h; WGM00 h;
     COM2A1 h; COM2A0 h; COM2B1 h; COM2B0 h; WGM21 h; WGM20 h;
     CS01 h; CS21 h].

(** * Proofs *)

(** Concrete vectors: membership in [SensorReading] and [track_lost]. *)
Ltac sensor_reading :=
  split; [reflexivity | unfold ADC_MAX; repeat constructor; lia].

Ltac all_below_on_track :=
  unfold track_lost, ON_TRACK_VALUE; repeat constructor; lia.

(** ** Conversions on values that fit *)

Lemma to_uint8_small z : 0 <= z < 256 -> to_uint8 z = z.
Proof. intros H. unfold to_uint8. apply Z.mod_small. lia. Qed.

Lemma to_uint16_small z : 0 <= z < 65536 -> to_uint16 z = z.
Proof. intros H. unfold to_uint16. apply Z.mod_small. lia. Qed.

Lemma to_uint32_small z : 0 <= z < 4294967296 -> to_uint32 z = z.
Proof. intros H. unfold to_uint32. apply Z.mod_small. lia. Qed.

Lemma to_int16_small z : -32768 <= z < 32768 -> to_int16 z = z.
Proof.
  intros H. unfold to_int16.
  rewrite Z.mod_small by lia. lia.
Qed.

Lemma to_int32_small z : -2147483648 <= z < 2147483648 -> to_int32 z = z.
Proof.
  intros H. unfold to_int32.
  rewrite Z.mod_small by lia. lia.
Qed.

Lemma to_int16_range z : -32768 <= to_int16 z < 32768.
Proof.
  unfold to_int16.
  pose proof (Z.mod_pos_bound (z + 2 ^ 15) (2 ^ 16) ltac:(lia)). lia.
Qed.

(** ** clamp *)

Lemma clamp_range value lo hi :
  0 <= lo <= hi -> hi < 256 -> lo <= clamp value lo hi <= hi.
Proof.
  intros Hlo Hhi. unfold clamp.
  destruct (value <? lo) eqn:E1; [lia|].
  destruct (value >? hi) eqn:E2; [lia|].
  rewrite to_uint8_small; lia.
Qed.

(** ** The scanning loop *)

Lemma read_line_input_nth adc i :
  (i < Z.to_nat SENSOR_NUM)%nat -> nth i (read_line_input adc) 0 = nth i adc 0.
Proof.
  intros Hi. unfold read_line_input.
  rewrite (nth_indep _ 0 (ADC_get adc 0%nat))
    by (rewrite length_map, length_seq; exact Hi).
  rewrite map_nth, seq_nth by exact Hi. reflexivity.
Qed.

Lemma read_line_input_full adc :
  length adc = Z.to_nat SENSOR_NUM -> read_line_input adc = adc.
Proof.
  intros H.
  destruct adc as [|a [|b [|c [|d [|e [|f [|g t]]]]]]]; try discriminate H.
  reflexivity.
Qed.

Lemma scan_loop_full vs :
  length vs = Z.to_nat SENSOR_NUM ->
  scan_loop vs = fold_left (fun s v => scan_step v s) vs scan_init.
Proof.
  intros H.
  destruct vs as [|a [|b [|c [|d [|e [|f [|g t]]]]]]]; try discriminate H.
  reflexivity.
Qed.

Lemma on_track_fold values idx s :
  on_track (fold_left (scan_body values) idx s)
  = on_track s || existsb (fun i => nth i values 0 >? ON_TRACK_VALUE) idx.
Proof.
  revert s. induction idx as [|i idx IH]; intros s; simpl.
  - now rewrite orb_false_r.
  - rewrite IH. unfold scan_body, scan_step. simpl on_track.
    destruct (nth i values 0 >? ON_TRACK_VALUE); simpl;
      [now rewrite orb_true_r | reflexivity].
Qed.

Lemma track_lost_nth adc i : track_lost adc -> nth i adc 0 <= ON_TRACK_VALUE.
Proof.
  intros H. destruct (nth_in_or_default i adc 0) as [Hin | ->].
  - unfold track_lost in H. rewrite Forall_forall in H. now apply H.
  - unfold ON_TRACK_VALUE. lia.
Qed.

Lemma track_lost_off adc :
  track_lost adc -> on_track (scan_loop (read_line_input adc)) = false.
Proof.
  intros H. unfold scan_loop. rewrite on_track_fold. simpl on_track.
  rewrite orb_false_l.
  destruct (existsb _ _) eqn:E; [|reflexivity].
  apply existsb_exists in E. destruct E as [i [Hin Hgt]].
  apply in_seq in Hin.
  rewrite read_line_input_nth in Hgt by lia.
  pose proof (track_lost_nth adc i H). lia.
Qed.

(** The totals of the specification, one reading at a time. *)
Lemma totals_cons k v rest :
  weighted_total_from k (v :: rest)
  = (if v >? NOISE_THRESHOLD then k * HEUR_OFFSET * v else 0)
    + weighted_total_from (k + 1) rest
  /\ value_total_from k (v :: rest)
     = (if v >? NOISE_THRESHOLD then v else 0) + value_total_from (k + 1) rest.
Proof.
  unfold weighted_total_from, value_total_from, qualifying_from.
  simpl. destruct (v >? NOISE_THRESHOLD); simpl; split; reflexivity.
Qed.

Lemma totals_bounds vs :
  forall k,
    Forall (fun v => 0 <= v <= ADC_MAX) vs ->
    0 <= k -> k + Z.of_nat (length vs) <= SENSOR_NUM ->
    0 <= value_total_from k vs <= Z.of_nat (length vs) * ADC_MAX
    /\ 0 <= weighted_total_from k vs
          <= (SENSOR_NUM - 1) * HEUR_OFFSET * value_total_from k vs.
Proof.
  induction vs as [|v rest IH]; intros k Hall Hk Hlen.
  - unfold value_total_from, weighted_total_from. simpl. lia.
  - inversion Hall as [|? ? Hv Hrest]; subst.
    rewrite length_cons, Nat2Z.inj_succ in *.
    destruct (totals_cons k v rest) as [-> ->].
    destruct (IH (k + 1) Hrest ltac:(lia) ltac:(lia)) as [[S0 S1] [W0 W1]].
    unfold SENSOR_NUM, HEUR_OFFSET, ADC_MAX, NOISE_THRESHOLD in *.
    destruct (v >? 50); nia.
Qed.

Lemma track_seen_total vs k :
  Forall (fun v => 0 <= v <= ADC_MAX) vs -> track_seen vs ->
  ON_TRACK_VALUE < value_total_from k vs.
Proof.
  intros Hall Hseen. revert k.
  induction Hseen as [v rest Hv | v rest Hseen IH]; intros k;
    inversion Hall as [|? ? Hv0 Hrest]; subst;
    destruct (totals_cons k v rest) as [_ ->].
  - assert (Hlow : 0 <= value_total_from (k + 1) rest).
    { clear -Hrest. generalize (k + 1). induction rest as [|w r IHr]; intros j.
      - unfold value_total_from. simpl. lia.
      - inversion Hrest as [|? ? Hw Hr]; subst.
        destruct (totals_cons j w r) as [_ ->].
        specialize (IHr Hr (j + 1)).
        destruct (w >? NOISE_THRESHOLD); lia. }
    unfold ON_TRACK_VALUE, NOISE_THRESHOLD in *.
    destruct (v >? 50) eqn:E; lia.
  - specialize (IH Hrest (k + 1)).
    unfold ON_TRACK_VALUE, NOISE_THRESHOLD in *.
    destruct (v >? 50) eqn:E; lia.
Qed.

(** The loop computes the two totals without any wrap-around, and raises
    [on_track] exactly when some reading is above [ON_TRACK_VALUE]. *)
Lemma scan_fold_spec vs :
  forall k s,
    Forall (fun v => 0 <= v <= ADC_MAX) vs ->
    0 <= k -> k + Z.of_nat (length vs) <= SENSOR_NUM ->
    heur_offset s = k * HEUR_OFFSET ->
    0 <= sum s <= k * ADC_MAX ->
    0 <= average s <= k * ((SENSOR_NUM - 1) * HEUR_OFFSET * ADC_MAX) ->
    let s' := fold_left (fun s v => scan_step v s) vs s in
    on_track s' = on_track s || existsb (fun v => v >? ON_TRACK_VALUE) vs
    /\ average s' = average s + weighted_total_from k vs
    /\ sum s' = sum s + value_total_from k vs
    /\ heur_offset s' = (k + Z.of_nat (length vs)) * HEUR_OFFSET.
Proof.
  induction vs as [|v rest IH]; intros k s Hall Hk Hlen Hoff Hsum Havg.
  - simpl. unfold weighted_total_from, value_total_from. simpl.
    rewrite orb_false_r. repeat split; lia.
  - inversion Hall as [|? ? Hv Hrest]; subst.
    rewrite length_cons, Nat2Z.inj_succ in *.
    destruct (totals_cons k v rest) as [-> ->].
    cbn [fold_left].
    assert (Hstep :
      on_track (scan_step v s)
        = on_track s || (v >? ON_TRACK_VALUE)
      /\ average (scan_step v s)
         = average s + (if v >? NOISE_THRESHOLD then k * HEUR_OFFSET * v else 0)
      /\ sum (scan_step v s)
         = sum s + (if v >? NOISE_THRESHOLD then v else 0)
      /\ heur_offset (scan_step v s) = (k + 1) * HEUR_OFFSET).
    { unfold scan_step. cbn [on_track average sum heur_offset].
      rewrite Hoff.
      unfold SENSOR_NUM, HEUR_OFFSET, ADC_MAX, NOISE_THRESHOLD in *.
      split; [destruct (v >? ON_TRACK_VALUE), (on_track s); reflexivity|].
      rewrite (to_uint16_small (k * 1000 + 1000)) by lia.
      destruct (v >? 50).
      - rewrite to_int32_small by nia.
        rewrite to_uint32_small by nia.
        rewrite to_uint16_small by nia.
        repeat split; lia.
      - repeat split; lia. }
    destruct Hstep as (Ht & Ha & Hs & Ho).
    destruct (IH (k + 1) (scan_step v s) Hrest ltac:(lia) ltac:(lia) Ho)
      as (IHt & IHa & IHs & IHo).
    + rewrite Hs. unfold ADC_MAX, NOISE_THRESHOLD in *.
      destruct (v >? 50); lia.
    + rewrite Ha.
      unfold SENSOR_NUM, HEUR_OFFSET, ADC_MAX, NOISE_THRESHOLD in *.
      destruct (v >? 50); nia.
    + rewrite IHt, IHa, IHs, IHo, Ht, Ha, Hs.
      cbn [existsb]. rewrite orb_assoc.
      repeat split; lia.
Qed.

Lemma track_seen_existsb vs :
  track_seen vs <-> existsb (fun v => v >? ON_TRACK_VALUE) vs = true.
Proof.
  unfold track_seen. rewrite Exists_exists, existsb_exists.
  split; intros [v [Hin Hv]]; exists v; split; try assumption; lia.
Qed.

Lemma track_lost_existsb vs :
  track_lost vs <-> existsb (fun v => v >? ON_TRACK_VALUE) vs = false.
Proof.
  unfold track_lost. rewrite Forall_forall. split.
  - intros H. destruct (existsb _ vs) eqn:E; [|reflexivity].
    apply existsb_exists in E. destruct E as [v [Hin Hv]].
    specialize (H v Hin). lia.
  - intros E v Hin.
    destruct (v >? ON_TRACK_VALUE) eqn:Hv; [|lia].
    assert (existsb (fun v => v >? ON_TRACK_VALUE) vs = true)
      by (apply existsb_exists; eauto).
    congruence.
Qed.

(** The locals at the end of the loop, for a sensor vector. *)
Lemma scan_loop_spec adc :
  SensorReading adc ->
  scan_loop (read_line_input adc)
  = {| on_track := existsb (fun v => v >? ON_TRACK_VALUE) adc;
       average := weighted_total_from 0 adc;
       sum := value_total_from 0 adc;
       heur_offset := SENSOR_NUM * HEUR_OFFSET |}.
Proof.
  intros [Hlen Hall].
  rewrite read_line_input_full, scan_loop_full by assumption.
  destruct (scan_fold_spec adc 0 scan_init Hall) as (Ht & Ha & Hs & Ho);
    try (simpl; lia).
  { rewrite Hlen. unfold SENSOR_NUM. lia. }
  destruct (fold_left _ adc scan_init) as [t a s o].
  simpl in *. subst. f_equal.
  rewrite Hlen. unfold SENSOR_NUM. reflexivity.
Qed.

(** ** The estimator *)

Lemma weighted_average_range adc :
  SensorReading adc -> track_seen adc ->
  0 <= weighted_average adc <= (SENSOR_NUM - 1) * HEUR_OFFSET.
Proof.
  intros [Hlen Hall] Hseen.
  pose proof (track_seen_total adc 0 Hall Hseen) as Hpos.
  destruct (totals_bounds adc 0 Hall) as [_ [W0 W1]];
    [lia | rewrite Hlen; unfold SENSOR_NUM; lia |].
  unfold weighted_average, ON_TRACK_VALUE in *. split.
  - apply Z.div_pos; lia.
  - apply Z.div_le_upper_bound; lia.
Qed.

Lemma read_qrt_line_lost adc lv :
  track_lost adc ->
  read_qrt_line adc lv = Some (mkQrt (boundary_estimate lv) lv []).
Proof.
  intros H. unfold read_qrt_line, boundary_estimate.
  rewrite (track_lost_off adc H). cbn [negb].
  change ((SENSOR_NUM - 1) * Z.shiftr HEUR_OFFSET 1) with 2500.
  change ((SENSOR_NUM - 1) * HEUR_OFFSET / 2) with 2500.
  destruct (lv <? 2500); reflexivity.
Qed.

Lemma read_qrt_line_seen adc lv :
  SensorReading adc -> track_seen adc ->
  read_qrt_line adc lv
  = Some (mkQrt (weighted_average adc) (weighted_average adc)
            [(weighted_total_from 0 adc, value_total_from 0 adc)]).
Proof.
  intros Hadc Hseen.
  pose proof (weighted_average_range adc Hadc Hseen) as Hr.
  pose proof (track_seen_total adc 0 (proj2 Hadc) Hseen) as Hpos.
  unfold read_qrt_line. rewrite (scan_loop_spec adc Hadc).
  cbn [on_track average sum].
  rewrite (proj1 (track_seen_existsb adc) Hseen). cbn [negb].
  unfold udiv.
  destruct (value_total_from 0 adc =? 0) eqn:E;
    [unfold ON_TRACK_VALUE in Hpos; lia|].
  fold (weighted_average adc).
  change ((SENSOR_NUM - 1) * HEUR_OFFSET) with 5000 in Hr.
  cbv zeta.
  rewrite (to_int32_small (weighted_average adc)) by lia.
  rewrite to_int16_small by lia.
  reflexivity.
Qed.

Lemma track_seen_or_lost adc : track_seen adc \/ track_lost adc.
Proof.
  destruct (existsb (fun v => v >? ON_TRACK_VALUE) adc) eqn:E.
  - left. now apply track_seen_existsb.
  - right. now apply track_lost_existsb.
Qed.

(** On sensor vectors the estimator always returns, and keeps a stored
    estimate that is in range. *)
Lemma read_qrt_line_total adc lv :
  SensorReading adc ->
  exists r, read_qrt_line adc lv = Some r
    /\ (0 <= lv <= (SENSOR_NUM - 1) * HEUR_OFFSET ->
        0 <= qrt_last_value r <= (SENSOR_NUM - 1) * HEUR_OFFSET)
    /\ -32768 <= qrt_return r < 32768.
Proof.
  intros Hadc. destruct (track_seen_or_lost adc) as [Hseen | Hlost].
  - rewrite (read_qrt_line_seen adc lv Hadc Hseen).
    pose proof (weighted_average_range adc Hadc Hseen) as Hr.
    eexists; split; [reflexivity|]. cbn [qrt_last_value qrt_return].
    change ((SENSOR_NUM - 1) * HEUR_OFFSET) with 5000 in *. lia.
  - rewrite (read_qrt_line_lost adc lv Hlost).
    eexists; split; [reflexivity|]. cbn [qrt_last_value qrt_return].
    unfold boundary_estimate.
    change ((SENSOR_NUM - 1) * HEUR_OFFSET / 2) with 2500.
    change ((SENSOR_NUM - 1) * HEUR_OFFSET) with 5000.
    destruct (lv <? 2500); lia.
Qed.

(** C4: when no reading exceeds ON_TRACK_VALUE the estimator executes no
    division (hence cannot divide by zero), leaves its static alone and
    returns the boundary estimate: 0 if the stored estimate is below the
    midpoint (N-1)*HEUR_OFFSET/2, and (N-1)*HEUR_OFFSET otherwise. *)
Theorem track_loss_returns_boundary (adc : list Z) (stored : Z) :
  track_lost adc ->
  exists r,
    read_qrt_line adc stored = Some r
    /\ qrt_divisions r = []
    /\ qrt_return r
       = (if stored <? (SENSOR_NUM - 1) * HEUR_OFFSET / 2
          then 0
          else (SENSOR_NUM - 1) * HEUR_OFFSET).
Proof.
  intros Hlost. rewrite (read_qrt_line_lost adc stored Hlost).
  eexists; split; [reflexivity|]. split; reflexivity.
Qed.

Lemma track_loss_returns_boundary_witness :
  track_lost [0; 120; 200; 7; 0; 0]
  /\ exists r,
       read_qrt_line [0; 120; 200; 7; 0; 0] 1200 = Some r
       /\ qrt_divisions r = []
       /\ qrt_return r = 0.
Proof.
  assert (H : track_lost [0; 120; 200; 7; 0; 0]).
  { all_below_on_track. }
  split; [exact H|].
  exact (track_loss_returns_boundary [0; 120; 200; 7; 0; 0] 1200 H).
Defined.

(** C5: a track-loss cycle leaves the stored estimate unchanged; the
    boundary value is not written back, so a following loss cycle resolves
    to the same boundary.  (Scenario C: stored 4000, readings all 0, the
    estimator returns 5000 and the stored estimate stays 4000.) *)
Theorem track_loss_keeps_state (adc adc' : list Z) (stored : Z) :
  track_lost adc -> track_lost adc' ->
  exists r r',
    read_qrt_line adc stored = Some r
    /\ qrt_last_value r = stored
    /\ qrt_return r = boundary_estimate stored
    /\ read_qrt_line adc' (qrt_last_value r) = Some r'
    /\ qrt_return r' = qrt_return r
    /\ qrt_last_value r' = stored.
Proof.
  intros Hlost Hlost'.
  exists (mkQrt (boundary_estimate stored) stored []).
  exists (mkQrt (boundary_estimate stored) stored []).
  cbn [qrt_last_value qrt_return].
  rewrite (read_qrt_line_lost adc stored Hlost).
  rewrite (read_qrt_line_lost adc' stored Hlost').
  repeat split; reflexivity.
Qed.

Lemma track_loss_keeps_state_witness :
  track_lost [0; 0; 0; 0; 0; 0]
  /\ exists r r',
       read_qrt_line [0; 0; 0; 0; 0; 0] 4000 = Some r
       /\ qrt_last_value r = 4000
       /\ qrt_return r = 5000
       /\ read_qrt_line [0; 0; 0; 0; 0; 0] (qrt_last_value r) = Some r'
       /\ qrt_return r' = qrt_return r
       /\ qrt_last_value r' = 4000.
Proof.
  assert (H : track_lost [0; 0; 0; 0; 0; 0]).
  { all_below_on_track. }
  split; [exact H|].
  exact (track_loss_keeps_state [0; 0; 0; 0; 0; 0] [0; 0; 0; 0; 0; 0] 4000 H H).
Defined.

(** C6: for every sensor vector with at least one reading strictly above
    ON_TRACK_VALUE the estimator returns a value in the closed range
    [0, (N-1)*HEUR_OFFSET], that is [0, 5000]. *)
Theorem on_track_estimate_in_range (adc : list Z) (stored : Z) :
  SensorReading adc -> track_seen adc ->
  exists r,
    read_qrt_line adc stored = Some r
    /\ 0 <= qrt_return r <= (SENSOR_NUM - 1) * HEUR_OFFSET
    /\ (SENSOR_NUM - 1) * HEUR_OFFSET = 5000.
Proof.
  intros Hadc Hseen. rewrite (read_qrt_line_seen adc stored Hadc Hseen).
  eexists; split; [reflexivity|]. cbn [qrt_return].
  split; [now apply weighted_average_range | reflexivity].
Qed.

Lemma on_track_estimate_in_range_witness :
  SensorReading [1023; 60; 0; 300; 51; 1023]
  /\ track_seen [1023; 60; 0; 300; 51; 1023]
  /\ exists r,
       read_qrt_line [1023; 60; 0; 300; 51; 1023] 0 = Some r
       /\ 0 <= qrt_return r <= (SENSOR_NUM - 1) * HEUR_OFFSET
       /\ (SENSOR_NUM - 1) * HEUR_OFFSET = 5000.
Proof.
  assert (H1 : SensorReading [1023; 60; 0; 300; 51; 1023]).
  { sensor_reading. }
  assert (H2 : track_seen [1023; 60; 0; 300; 51; 1023]).
  { unfold track_seen, ON_TRACK_VALUE. apply Exists_cons_hd. lia. }
  split; [exact H1|]. split; [exact H2|].
  exact (on_track_estimate_in_range [1023; 60; 0; 300; 51; 1023] 0 H1 H2).
Defined.

(** C7: on an on-track cycle the estimate is the integer quotient of the
    sum of i*HEUR_OFFSET*value_i by the sum of value_i, both taken over
    exactly the readings strictly above NOISE_THRESHOLD; whether the cycle
    is on track is decided by ON_TRACK_VALUE alone, so a reading between
    the two thresholds enters both sums without making the cycle on
    track. *)
Theorem estimate_is_weighted_average (adc : list Z) (stored : Z) :
  SensorReading adc ->
  let qualifying :=
    filter (fun iv => snd iv >? NOISE_THRESHOLD) (indexed_from 0 adc) in
  let weighted := Zsum (map (fun iv => fst iv * HEUR_OFFSET * snd iv) qualifying) in
  let total := Zsum (map snd qualifying) in
  read_qrt_line adc stored
  = if existsb (fun v => v >? ON_TRACK_VALUE) adc
    then Some (mkQrt (weighted / total) (weighted / total) [(weighted, total)])
    else Some (mkQrt (boundary_estimate stored) stored []).
Proof.
  intros Hadc. cbv zeta.
  destruct (existsb (fun v => v >? ON_TRACK_VALUE) adc) eqn:E.
  - apply track_seen_existsb in E.
    exact (read_qrt_line_seen adc stored Hadc E).
  - apply track_lost_existsb in E.
    exact (read_qrt_line_lost adc stored E).
Qed.

Lemma estimate_is_weighted_average_witness :
  SensorReading [100; 0; 0; 0; 0; 900]
  /\ SensorReading [100; 0; 0; 0; 0; 0]
  /\ read_qrt_line [100; 0; 0; 0; 0; 900] 0
     = Some (mkQrt 4500 4500 [(4500000, 1000)])
  /\ read_qrt_line [100; 0; 0; 0; 0; 0] 0 = Some (mkQrt 0 0 []).
Proof.
  assert (H1 : SensorReading [100; 0; 0; 0; 0; 900]).
  { sensor_reading. }
  assert (H2 : SensorReading [100; 0; 0; 0; 0; 0]).
  { sensor_reading. }
  split; [exact H1|]. split; [exact H2|]. split.
  - exact (estimate_is_weighted_average [100; 0; 0; 0; 0; 900] 0 H1).
  - exact (estimate_is_weighted_average [100; 0; 0; 0; 0; 0] 0 H2).
Defined.

Lemma estimator_loop_range cycles :
  forall lv,
    Forall SensorReading cycles ->
    0 <= lv <= (SENSOR_NUM - 1) * HEUR_OFFSET ->
    exists lv',
      estimator_loop cycles lv = Some lv'
      /\ 0 <= lv' <= (SENSOR_NUM - 1) * HEUR_OFFSET.
Proof.
  induction cycles as [|adc rest IH]; intros lv Hall Hlv.
  - exists lv. split; [reflexivity | exact Hlv].
  - inversion Hall as [|? ? Hadc Hrest]; subst.
    destruct (read_qrt_line_total adc lv Hadc) as (r & Hr & Hkeep & _).
    cbn [estimator_loop]. rewrite Hr.
    apply IH; [exact Hrest | exact (Hkeep Hlv)].
Qed.

(** C9: starting from its initial value 0, the stored last on-track
    estimate lies in [0, (N-1)*HEUR_OFFSET] = [0, 5000] after every call of
    the estimator, whatever sequence of sensor vectors is read (the
    sequence is arbitrary, so this covers the state after each call). *)
Theorem stored_estimate_in_range (cycles : list (list Z)) :
  Forall SensorReading cycles ->
  exists lv,
    estimator_loop cycles (last_value statics_init) = Some lv
    /\ 0 <= lv <= (SENSOR_NUM - 1) * HEUR_OFFSET
    /\ (SENSOR_NUM - 1) * HEUR_OFFSET = 5000.
Proof.
  intros Hall.
  destruct (estimator_loop_range cycles 0 Hall) as (lv & Hrun & Hlv).
  - change ((SENSOR_NUM - 1) * HEUR_OFFSET) with 5000. lia.
  - exists lv. repeat split; try assumption; lia.
Qed.

Lemma stored_estimate_in_range_witness :
  Forall SensorReading
    [[0; 0; 900; 900; 0; 0]; [0; 0; 0; 0; 0; 0]; [0; 0; 0; 0; 300; 1023]]
  /\ exists lv,
       estimator_loop
         [[0; 0; 900; 900; 0; 0]; [0; 0; 0; 0; 0; 0]; [0; 0; 0; 0; 300; 1023]]
         (last_value statics_init) = Some lv
       /\ 0 <= lv <= (SENSOR_NUM - 1) * HEUR_OFFSET
       /\ (SENSOR_NUM - 1) * HEUR_OFFSET = 5000.
Proof.
  assert (H : Forall SensorReading
    [[0; 0; 900; 900; 0; 0]; [0; 0; 0; 0; 0; 0]; [0; 0; 0; 0; 300; 1023]]).
  { repeat (apply Forall_cons; [sensor_reading|]). apply Forall_nil. }
  split; [exact H|].
  exact (stored_estimate_in_range _ H).
Defined.

(** ** The controller error *)

(** C10: for an estimator output in [0, (N-1)*HEUR_OFFSET], narrowing it to
    unsigned int, subtracting MIDDLE_ERROR in unsigned 16-bit arithmetic
    and reading the result back as a signed int gives exactly the
    mathematical difference, whose magnitude is at most 2500 < 2^15. *)
Theorem position_error_exact (ret : Z) :
  0 <= ret <= (SENSOR_NUM - 1) * HEUR_OFFSET ->
  position_error (narrow_position ret) = ret - MIDDLE_ERROR
  /\ Z.abs (ret - MIDDLE_ERROR) <= 2500 < 2 ^ 15.
Proof.
  change ((SENSOR_NUM - 1) * HEUR_OFFSET) with 5000.
  intros H. unfold position_error, narrow_position, MIDDLE_ERROR.
  rewrite (to_uint16_small ret) by lia.
  rewrite (to_uint16_small 2500) by lia.
  split; [|lia].
  unfold to_int16, to_uint16.
  rewrite Zplus_mod_idemp_l.
  rewrite Z.mod_small by lia. lia.
Qed.

Lemma position_error_exact_witness :
  0 <= 0 <= (SENSOR_NUM - 1) * HEUR_OFFSET
  /\ position_error (narrow_position 0) = 0 - MIDDLE_ERROR
  /\ Z.abs (0 - MIDDLE_ERROR) <= 2500 < 2 ^ 15.
Proof.
  assert (H : 0 <= 0 <= (SENSOR_NUM - 1) * HEUR_OFFSET)
    by (unfold SENSOR_NUM, HEUR_OFFSET; lia).
  split; [exact H|].
  exact (position_error_exact 0 H).
Defined.

(** ** One control cycle *)

Lemma handle_move_eq adc st r :
  read_qrt_line adc (last_value st) = Some r ->
  let restart := reset_integral st =? INTEGRAL_RESET_ITER in
  let error := position_error (narrow_position (qrt_return r)) in
  let integral1 := to_int32 ((if restart then 0 else integral st) + error) in
  let pid := pid_of error integral1 (last_error st) in
  handle_move adc st
  = Some {| cy_statics :=
              {| last_value := qrt_last_value r;
                 last_error := last_error st;
                 integral := integral1;
                 reset_integral :=
                   to_int16 ((if restart then 0 else reset_integral st) + 1) |};
            cy_pwm := drive pid;
            cy_position := narrow_position (qrt_return r);
            cy_error := error;
            cy_pid := pid |}.
Proof.
  intros Hr. unfold handle_move. rewrite Hr.
  destruct (reset_integral st =? INTEGRAL_RESET_ITER);
    cbv beta iota zeta; reflexivity.
Qed.

Lemma position_error_range position :
  -32768 <= position_error position < 32768.
Proof. unfold position_error. apply to_int16_range. Qed.

Lemma drive_range pid :
  0 <= left_duty (drive pid) <= MAX_SPEED
  /\ 0 <= right_duty (drive pid) <= MAX_SPEED.
Proof.
  unfold drive, left_duty, right_duty. cbn [OCR0A OCR2B].
  assert (Hc : forall v, 0 <= clamp v 0 MAX_SPEED <= MAX_SPEED)
    by (intros v; apply clamp_range; unfold MAX_SPEED; lia).
  pose proof (Hc (to_int16 (BASE_SPEED + pid))) as Hl.
  pose proof (Hc (to_int16 (BASE_SPEED - pid))) as Hr.
  unfold MAX_SPEED in *.
  rewrite !to_uint8_small by lia. lia.
Qed.

(** ** The control loop *)

Lemma main_loop_app h1 h2 st :
  main_loop (h1 ++ h2) st
  = match main_loop h1 st with
    | None => None
    | Some st' => main_loop h2 st'
    end.
Proof.
  revert st. induction h1 as [|adc rest IH]; intros st; cbn [main_loop app].
  - reflexivity.
  - destruct (handle_move adc st) as [c|]; [apply IH | reflexivity].
Qed.

Lemma counter_after_next n :
  0 <= n ->
  to_int16
    ((if counter_after n =? INTEGRAL_RESET_ITER then 0 else counter_after n) + 1)
  = counter_after (n + 1).
Proof.
  intros Hn. unfold counter_after, INTEGRAL_RESET_ITER.
  destruct (n + 1 =? 0) eqn:E1; [lia|].
  replace (n + 1 - 1) with n by lia.
  destruct (n =? 0) eqn:E0.
  - apply Z.eqb_eq in E0. subst n. reflexivity.
  - apply Z.eqb_neq in E0.
    pose proof (Z.mod_pos_bound (n - 1) 125 ltac:(lia)) as Hm.
    pose proof (Z.mod_pos_bound n 125 ltac:(lia)) as Hm'.
    assert (Hrel : n mod 125 = ((n - 1) mod 125 + 1) mod 125).
    { rewrite Zplus_mod_idemp_l. f_equal. lia. }
    destruct ((n - 1) mod 125 + 1 =? 125) eqn:E.
    + apply Z.eqb_eq in E. rewrite E in Hrel.
      rewrite Z_mod_same_full in Hrel. rewrite Hrel. reflexivity.
    + apply Z.eqb_neq in E.
      rewrite (Z.mod_small ((n - 1) mod 125 + 1)) in Hrel by lia.
      rewrite to_int16_small by lia. lia.
Qed.

(** On sensor vectors the loop never stops on a fault, and the cycle
    counter only depends on the number of calls. *)
Lemma main_loop_counter hist :
  Forall SensorReading hist ->
  exists st,
    main_loop hist statics_init = Some st
    /\ reset_integral st = counter_after (Z.of_nat (length hist)).
Proof.
  induction hist as [|adc hist IH] using rev_ind; intros Hall.
  - exists statics_init. split; reflexivity.
  - apply Forall_app in Hall. destruct Hall as [Hhist Hadc].
    inversion Hadc as [|? ? Hadc' _]; subst.
    destruct (IH Hhist) as (st & Hrun & Hcnt).
    destruct (read_qrt_line_total adc (last_value st) Hadc') as (r & Hr & _).
    rewrite main_loop_app, Hrun. cbn [main_loop].
    rewrite (handle_move_eq adc st r Hr). cbv zeta.
    eexists. split; [reflexivity|]. cbn [cy_statics reset_integral].
    rewrite Hcnt, length_app, Nat2Z.inj_add. cbn [length].
    apply counter_after_next. lia.
Qed.

(** ** The motor stage *)


(** C1 (evaluation of the code): the per-motor maxima LEFT_MAX_SPEED and
    RIGHT_MAX_SPEED, defined "in case the motors are not performing
    equally", are never applied.  With the line under the last sensor the
    first cycle computes the correction 129 and drives the left motor at
    240, above LEFT_MAX_SPEED = 220; with the line under the first sensor
    the correction is -129 and the right motor is driven at 240, above
    RIGHT_MAX_SPEED = 210. *)
Lemma duties_exceed_calibrated_maxima :
  (exists c,
     handle_move [0; 0; 0; 0; 0; 900] statics_init = Some c
     /\ cy_pid c = 129
     /\ left_duty (cy_pwm c) = 240
     /\ ~ (0 <= left_duty (drive 129) <= LEFT_MAX_SPEED))
  /\ (exists c,
        handle_move [900; 0; 0; 0; 0; 0] statics_init = Some c
        /\ cy_pid c = -129
        /\ right_duty (cy_pwm c) = 240
        /\ ~ (0 <= right_duty (drive (-129)) <= RIGHT_MAX_SPEED)).
Proof.
  split; eexists; (split; [vm_compute; reflexivity|]);
    repeat split; try reflexivity; vm_compute; intros [_ H]; apply H; reflexivity.
Qed.

(** ** The controller *)

(** C2 (evaluation of the code): [handle_move] never writes [last_error].
    After a first cycle whose error is -2500 the static is still 0, and the
    second cycle, with the same error -2500, computes its derivative term
    against 0: the correction is -129, where the previous cycle's error
    would give -128. *)
Theorem last_error_is_never_stored :
  (forall adc st,
     match handle_move adc st with
     | Some c => last_error (cy_statics c) = last_error st
     | None => True
     end)
  /\ exists c1 c2,
       handle_move [900; 0; 0; 0; 0; 0] statics_init = Some c1
       /\ cy_error c1 = -2500
       /\ last_error (cy_statics c1) = 0
       /\ handle_move [900; 0; 0; 0; 0; 0] (cy_statics c1) = Some c2
       /\ cy_error c2 = -2500
       /\ integral (cy_statics c2) = -5000
       /\ cy_pid c2 = pid_of (-2500) (-5000) 0
       /\ cy_pid c2 = -129
       /\ pid_of (-2500) (-5000) (-2500) = -128.
Proof.
  split.
  - intros adc st. unfold handle_move.
    destruct (reset_integral st =? INTEGRAL_RESET_ITER);
      destruct (read_qrt_line adc (last_value st));
      cbv beta iota zeta delta [cy_statics last_error]; reflexivity.
  - do 2 eexists.
    split; [vm_compute; reflexivity|].
    repeat split; vm_compute; reflexivity.
Qed.

(** C3 fails as stated: after 125 calls with the line under the first
    sensor (error -2500 each time) the accumulator holds -312500. *)
Lemma integral_not_zero_after_reset_iter_calls :
  Forall SensorReading (repeat [900; 0; 0; 0; 0; 0] 125)
  /\ Z.of_nat (length (repeat [900; 0; 0; 0; 0; 0] 125)) = INTEGRAL_RESET_ITER
  /\ exists st,
       main_loop (repeat [900; 0; 0; 0; 0; 0] 125) statics_init = Some st
       /\ integral st = -312500
       /\ integral st <> 0.
Proof.
  split.
  { apply Forall_forall. intros adc Hin. apply repeat_spec in Hin. subst adc.
    sensor_reading. }
  split; [reflexivity|].
  eexists. split; [vm_compute; reflexivity|].
  split; [reflexivity | discriminate].
Qed.

(** C3 (as the code has it): the reset takes place at the start of the call
    that follows every INTEGRAL_RESET_ITER-th call, before that call's
    error is accumulated.  For every history of sensor vectors whose length
    is a positive multiple of INTEGRAL_RESET_ITER the counter has reached
    INTEGRAL_RESET_ITER, and immediately after the next call the
    accumulator equals that call's error alone and the counter is 1,
    whatever was accumulated before. *)
Theorem integral_restarts_after_reset_iter_calls
    (hist : list (list Z)) (adc : list Z) :
  Forall SensorReading hist -> SensorReading adc ->
  (0 < length hist)%nat ->
  Z.of_nat (length hist) mod INTEGRAL_RESET_ITER = 0 ->
  exists st c,
    main_loop hist statics_init = Some st
    /\ reset_integral st = INTEGRAL_RESET_ITER
    /\ handle_move adc st = Some c
    /\ integral (cy_statics c) = cy_error c
    /\ reset_integral (cy_statics c) = 1.
Proof.
  intros Hhist Hadc Hpos Hmod.
  destruct (main_loop_counter hist Hhist) as (st & Hrun & Hcnt).
  assert (Hfull : reset_integral st = INTEGRAL_RESET_ITER).
  { rewrite Hcnt. unfold counter_after, INTEGRAL_RESET_ITER in *.
    destruct (Z.of_nat (length hist) =? 0) eqn:E; [lia|].
    pose proof (Z.mod_pos_bound (Z.of_nat (length hist) - 1) 125 ltac:(lia)).
    assert (Hrel : Z.of_nat (length hist) mod 125
                   = ((Z.of_nat (length hist) - 1) mod 125 + 1) mod 125).
    { rewrite Zplus_mod_idemp_l. f_equal. lia. }
    rewrite Hmod in Hrel.
    destruct (Z.eq_dec ((Z.of_nat (length hist) - 1) mod 125 + 1) 125)
      as [Heq | Hneq]; [exact Heq|].
    rewrite Z.mod_small in Hrel by lia. lia. }
  destruct (read_qrt_line_total adc (last_value st) Hadc) as (r & Hr & _).
  exists st. eexists.
  split; [exact Hrun|]. split; [exact Hfull|].
  split; [exact (handle_move_eq adc st r Hr)|].
  cbn [cy_statics cy_error integral reset_integral].
  rewrite Hfull, Z.eqb_refl.
  pose proof (position_error_range (narrow_position (qrt_return r))).
  rewrite to_int32_small by lia.
  split; [lia | reflexivity].
Qed.

Lemma integral_restarts_after_reset_iter_calls_witness :
  exists st c,
    main_loop (repeat [900; 0; 0; 0; 0; 0] 125) statics_init = Some st
    /\ reset_integral st = INTEGRAL_RESET_ITER
    /\ handle_move [0; 0; 0; 0; 0; 900] st = Some c
    /\ integral (cy_statics c) = cy_error c
    /\ reset_integral (cy_statics c) = 1.
Proof.
  apply (integral_restarts_after_reset_iter_calls
           (repeat [900; 0; 0; 0; 0; 0] 125) [0; 0; 0; 0; 0; 900]).
  - apply Forall_forall. intros adc Hin. apply repeat_spec in Hin. subst adc.
    sensor_reading.
  - sensor_reading.
  - simpl. lia.
  - reflexivity.
Defined.

(** C8: for the sensor vector [0,0,900,900,0,0] and a controller with zero
    integral and zero last error, the estimator returns exactly 2500, which
    is MIDDLE_ERROR, the controller error is 0, and both motor commands
    equal BASE_SPEED. *)
Theorem scenario_centered_line (stored counter : Z) :
  exists r c,
    read_qrt_line [0; 0; 900; 900; 0; 0] stored = Some r
    /\ qrt_return r = 2500
    /\ qrt_return r = MIDDLE_ERROR
    /\ handle_move [0; 0; 900; 900; 0; 0]
         {| last_value := stored; last_error := 0; integral := 0;
            reset_integral := counter |} = Some c
    /\ cy_position c = 2500
    /\ cy_error c = 0
    /\ left_duty (cy_pwm c) = BASE_SPEED
    /\ right_duty (cy_pwm c) = BASE_SPEED.
Proof.
  assert (Hr : read_qrt_line [0; 0; 900; 900; 0; 0] stored
               = Some (mkQrt 2500 2500 [(4500000, 1800)])) by reflexivity.
  do 2 eexists.
  split; [exact Hr|]. split; [reflexivity|]. split; [reflexivity|].
  split.
  - apply handle_move_eq. exact Hr.
  - cbn [cy_position cy_error cy_pwm qrt_return last_error integral
         reset_integral].
    destruct (counter =? INTEGRAL_RESET_ITER);
      repeat split; vm_compute; reflexivity.
Qed.

(** * Further properties of the pipeline *)

(** ** clamp and the motor stage *)

(** X1: with bounds that fit a [uint8_t], [clamp] returns a value between
    the bounds; it returns the value itself when it already lies between
    them (the narrowing to 8 bits never truncates), the lower bound for a
    smaller value and the upper bound for a larger one. *)
Theorem clamp_saturates (value lo hi : Z) :
  0 <= lo <= hi -> hi <= 255 ->
  lo <= clamp value lo hi <= hi
  /\ (lo <= value <= hi -> clamp value lo hi = value)
  /\ (value < lo -> clamp value lo hi = lo)
  /\ (hi < value -> clamp value lo hi = hi).
Proof.
  intros Hlo Hhi. split; [apply clamp_range; lia|].
  unfold clamp.
  destruct (value <? lo) eqn:E1; destruct (value >? hi) eqn:E2;
    repeat split; intros; try lia;
    rewrite ?to_uint8_small by lia; lia.
Qed.

Lemma clamp_saturates_witness :
  0 <= clamp 304 0 MAX_SPEED <= MAX_SPEED
  /\ (0 <= 304 <= MAX_SPEED -> clamp 304 0 MAX_SPEED = 304)
  /\ (304 < 0 -> clamp 304 0 MAX_SPEED = 0)
  /\ (MAX_SPEED < 304 -> clamp 304 0 MAX_SPEED = MAX_SPEED).
Proof.
  apply (clamp_saturates 304 0 MAX_SPEED); unfold MAX_SPEED; lia.
Defined.

(** X2: while the correction stays within BASE_SPEED - MAX_SPEED and
    MAX_SPEED - BASE_SPEED (-65 .. 65) neither duty is clamped: the left
    duty is BASE_SPEED + pid and the right duty is BASE_SPEED - pid, so the
    two always sum to 2 * BASE_SPEED. *)
Theorem drive_is_differential (pid : Z) :
  BASE_SPEED - MAX_SPEED <= pid <= MAX_SPEED - BASE_SPEED ->
  left_duty (drive pid) = BASE_SPEED + pid
  /\ right_duty (drive pid) = BASE_SPEED - pid
  /\ left_duty (drive pid) + right_duty (drive pid) = 2 * BASE_SPEED.
Proof.
  unfold BASE_SPEED, MAX_SPEED. intros H.
  unfold drive, left_duty, right_duty, clamp, BASE_SPEED, MAX_SPEED.
  cbn [OCR0A OCR2B].
  rewrite !(to_int16_small (175 + pid)), !(to_int16_small (175 - pid)) by lia.
  destruct (175 + pid <? 0) eqn:E1; [lia|].
  destruct (175 + pid >? 240) eqn:E2; [lia|].
  destruct (175 - pid <? 0) eqn:E3; [lia|].
  destruct (175 - pid >? 240) eqn:E4; [lia|].
  rewrite !(to_uint8_small (175 + pid)), !(to_uint8_small (175 - pid)) by lia.
  lia.
Qed.

Lemma drive_is_differential_witness :
  left_duty (drive (-40)) = BASE_SPEED + -40
  /\ right_duty (drive (-40)) = BASE_SPEED - -40
  /\ left_duty (drive (-40)) + right_duty (drive (-40)) = 2 * BASE_SPEED.
Proof.
  apply (drive_is_differential (-40)). unfold BASE_SPEED, MAX_SPEED. lia.
Defined.

Lemma drive_closed_form pid :
  -32592 <= pid <= 32592 ->
  left_duty (drive pid) = Z.max 0 (Z.min MAX_SPEED (BASE_SPEED + pid))
  /\ right_duty (drive pid) = Z.max 0 (Z.min MAX_SPEED (BASE_SPEED - pid)).
Proof.
  intros H.
  assert (Hc : forall v, clamp v 0 240 = Z.max 0 (Z.min 240 v)).
  { intros v. unfold clamp.
    destruct (v <? 0) eqn:E1; [lia|].
    destruct (v >? 240) eqn:E2; [lia|].
    rewrite to_uint8_small by lia. lia. }
  unfold drive, left_duty, right_duty, BASE_SPEED, MAX_SPEED.
  cbn [OCR0A OCR2B].
  rewrite !Hc.
  rewrite !(to_int16_small (175 + pid)), !(to_int16_small (175 - pid)) by lia.
  rewrite !to_uint8_small by lia.
  split; reflexivity.
Qed.

(** X3: as long as BASE_SPEED + pid and BASE_SPEED - pid fit an [int]
    (-32592 <= pid <= 32592), a larger correction never lowers the left
    duty and never raises the right duty; from pid = 65 on the left duty
    stays at MAX_SPEED and from pid = 175 on the right duty stays at 0. *)
Theorem drive_is_monotone (pid1 pid2 : Z) :
  -32592 <= pid1 -> pid1 <= pid2 -> pid2 <= 32592 ->
  left_duty (drive pid1) <= left_duty (drive pid2)
  /\ right_duty (drive pid2) <= right_duty (drive pid1)
  /\ (MAX_SPEED - BASE_SPEED <= pid1 -> left_duty (drive pid2) = MAX_SPEED)
  /\ (BASE_SPEED <= pid1 -> right_duty (drive pid2) = 0).
Proof.
  intros H1 H12 H2.
  destruct (drive_closed_form pid1 ltac:(lia)) as [L1 R1].
  destruct (drive_closed_form pid2 ltac:(lia)) as [L2 R2].
  rewrite L1, L2, R1, R2. clear L1 L2 R1 R2.
  unfold BASE_SPEED, MAX_SPEED. repeat split; intros; lia.
Qed.

Lemma drive_is_monotone_witness :
  left_duty (drive 70) <= left_duty (drive 200)
  /\ right_duty (drive 200) <= right_duty (drive 70)
  /\ (MAX_SPEED - BASE_SPEED <= 70 -> left_duty (drive 200) = MAX_SPEED)
  /\ (BASE_SPEED <= 70 -> right_duty (drive 200) = 0).
Proof.
  apply (drive_is_monotone 70 200); lia.
Defined.


(** ** The estimator beyond the range of its result *)

Lemma denoise_zero : denoise 0 = 0.
Proof. reflexivity. Qed.

Lemma scan_step_denoise v s : scan_step (denoise v) s = scan_step v s.
Proof.
  unfold denoise. destruct (v >? NOISE_THRESHOLD) eqn:E; [reflexivity|].
  unfold scan_step, NOISE_THRESHOLD, ON_TRACK_VALUE in *.
  cbn [Z.gtb Z.compare].
  assert (Hv : (v >? 200) = false) by lia.
  rewrite E, Hv. reflexivity.
Qed.

Lemma read_line_input_denoise adc :
  read_line_input (map denoise adc) = map denoise (read_line_input adc).
Proof.
  unfold read_line_input. rewrite map_map. apply map_ext.
  intros i. unfold ADC_get. rewrite <- denoise_zero at 1. apply map_nth.
Qed.

Lemma scan_loop_denoise values :
  scan_loop (map denoise values) = scan_loop values.
Proof.
  unfold scan_loop. generalize scan_init, (seq 0 (Z.to_nat SENSOR_NUM)).
  intros s idx. revert s.
  induction idx as [|i idx IH]; intros s; cbn [fold_left]; [reflexivity|].
  rewrite IH. f_equal. unfold scan_body.
  rewrite <- denoise_zero at 1. rewrite map_nth. apply scan_step_denoise.
Qed.

(** X5: readings at or below NOISE_THRESHOLD are treated exactly like 0:
    replacing each of them by 0 changes nothing in what the estimator
    returns, stores or divides, for any readings and any stored estimate. *)
Theorem noise_readings_count_as_zero (adc : list Z) (stored : Z) :
  read_qrt_line (map denoise adc) stored = read_qrt_line adc stored.
Proof.
  unfold read_qrt_line.
  rewrite read_line_input_denoise, scan_loop_denoise. reflexivity.
Qed.

Lemma indexed_from_In vs :
  forall k i v,
    In (i, v) (indexed_from k vs) ->
    exists n, (n < length vs)%nat /\ i = k + Z.of_nat n /\ v = nth n vs 0.
Proof.
  induction vs as [|w rest IH]; intros k i v Hin; cbn [indexed_from] in Hin.
  - destruct Hin.
  - destruct Hin as [Heq | Hin].
    + inversion Heq; subst. exists 0%nat. cbn [length nth]. repeat split; lia.
    + destruct (IH (k + 1) i v Hin) as (n & Hn & Hi & Hv).
      exists (S n). cbn [length nth]. repeat split; try lia; assumption.
Qed.

Lemma weighted_span (q : list (Z * Z)) lo hi :
  (forall iv, In iv q -> lo <= fst iv <= hi /\ 0 <= snd iv) ->
  lo * HEUR_OFFSET * Zsum (map snd q)
  <= Zsum (map (fun iv => fst iv * HEUR_OFFSET * snd iv) q)
  <= hi * HEUR_OFFSET * Zsum (map snd q).
Proof.
  induction q as [|[i v] q IH]; intros H; cbn [map Zsum fold_right fst snd].
  - lia.
  - destruct (H (i, v) (or_introl eq_refl)) as [Hi Hv]. cbn [fst snd] in Hi, Hv.
    specialize (IH (fun iv Hin => H iv (or_intror Hin))).
    unfold Zsum in IH. unfold HEUR_OFFSET in *. nia.
Qed.

Lemma estimate_span adc lo hi :
  SensorReading adc -> track_seen adc ->
  (forall n, (n < Z.to_nat SENSOR_NUM)%nat ->
             NOISE_THRESHOLD < nth n adc 0 -> lo <= Z.of_nat n <= hi) ->
  lo * HEUR_OFFSET <= weighted_average adc <= hi * HEUR_OFFSET.
Proof.
  intros Hadc Hseen Hspan.
  pose proof (track_seen_total adc 0 (proj2 Hadc) Hseen) as Hpos.
  destruct Hadc as [Hlen Hall].
  assert (Hq : forall iv, In iv (qualifying_from 0 adc) ->
                          lo <= fst iv <= hi /\ 0 <= snd iv).
  { intros [i v] Hin. unfold qualifying_from in Hin.
    apply filter_In in Hin. destruct Hin as [Hin Hv]. cbn [fst snd] in *.
    destruct (indexed_from_In adc 0 i v Hin) as (n & Hn & Hi & Hnth).
    subst i v. rewrite Hlen in Hn.
    split; [apply Hspan; [exact Hn | lia]|].
    unfold NOISE_THRESHOLD in Hv. lia. }
  pose proof (weighted_span (qualifying_from 0 adc) lo hi Hq) as [Wlo Whi].
  fold (weighted_total_from 0 adc) in Wlo, Whi.
  fold (value_total_from 0 adc) in Wlo, Whi.
  unfold weighted_average, ON_TRACK_VALUE in *. split.
  - apply Z.div_le_lower_bound; lia.
  - apply Z.div_le_upper_bound; lia.
Qed.

(** X6: on an on-track cycle the estimate lies between the weights of the
    lowest and the highest sensor whose reading is above NOISE_THRESHOLD:
    if all such sensors have their index between lo and hi, the estimate is
    between lo*HEUR_OFFSET and hi*HEUR_OFFSET. *)
Theorem estimate_within_sensor_span (adc : list Z) (stored lo hi : Z) :
  SensorReading adc -> track_seen adc ->
  (forall n, (n < Z.to_nat SENSOR_NUM)%nat ->
             NOISE_THRESHOLD < nth n adc 0 -> lo <= Z.of_nat n <= hi) ->
  exists r,
    read_qrt_line adc stored = Some r
    /\ lo * HEUR_OFFSET <= qrt_return r <= hi * HEUR_OFFSET.
Proof.
  intros Hadc Hseen Hspan.
  rewrite (read_qrt_line_seen adc stored Hadc Hseen).
  eexists; split; [reflexivity|]. cbn [qrt_return].
  now apply estimate_span.
Qed.

Lemma estimate_within_sensor_span_witness :
  exists r,
    read_qrt_line [0; 30; 400; 120; 800; 10] 0 = Some r
    /\ 2 * HEUR_OFFSET <= qrt_return r <= 4 * HEUR_OFFSET.
Proof.
  apply (estimate_within_sensor_span [0; 30; 400; 120; 800; 10] 0 2 4).
  - sensor_reading.
  - unfold track_seen, ON_TRACK_VALUE.
    apply Exists_cons_tl, Exists_cons_tl, Exists_cons_hd. lia.
  - intros n Hn Hv. unfold NOISE_THRESHOLD in Hv.
    do 6 (destruct n as [|n]; [simpl in Hv; lia|]). simpl in Hn. lia.
Defined.

(** X7: when a single sensor reads above ON_TRACK_VALUE and every other
    reading is at or below NOISE_THRESHOLD, the estimate is exactly that
    sensor's weight, index * HEUR_OFFSET, whatever the reading's size. *)
Theorem single_sensor_estimate (adc : list Z) (stored : Z) (i : nat) :
  SensorReading adc ->
  (i < Z.to_nat SENSOR_NUM)%nat ->
  ON_TRACK_VALUE < nth i adc 0 ->
  (forall n, (n < Z.to_nat SENSOR_NUM)%nat -> n <> i ->
             nth n adc 0 <= NOISE_THRESHOLD) ->
  exists r,
    read_qrt_line adc stored = Some r
    /\ qrt_return r = Z.of_nat i * HEUR_OFFSET
    /\ qrt_last_value r = Z.of_nat i * HEUR_OFFSET.
Proof.
  intros Hadc Hi Hv Hothers.
  assert (Hseen : track_seen adc).
  { unfold track_seen. apply Exists_exists. exists (nth i adc 0).
    split; [|exact Hv]. apply nth_In. rewrite (proj1 Hadc). exact Hi. }
  rewrite (read_qrt_line_seen adc stored Hadc Hseen).
  eexists; split; [reflexivity|]. cbn [qrt_return qrt_last_value].
  assert (Hspan : Z.of_nat i * HEUR_OFFSET <= weighted_average adc
                  <= Z.of_nat i * HEUR_OFFSET).
  { apply estimate_span; try assumption.
    intros n Hn Hnv. destruct (Nat.eq_dec n i) as [-> | Hne]; [lia|].
    specialize (Hothers n Hn Hne). lia. }
  lia.
Qed.

Lemma single_sensor_estimate_witness :
  exists r,
    read_qrt_line [900; 0; 0; 0; 0; 0] 3000 = Some r
    /\ qrt_return r = Z.of_nat 0 * HEUR_OFFSET
    /\ qrt_last_value r = Z.of_nat 0 * HEUR_OFFSET.
Proof.
  apply (single_sensor_estimate [900; 0; 0; 0; 0; 0] 3000 0).
  - sensor_reading.
  - simpl. lia.
  - unfold ON_TRACK_VALUE. simpl. lia.
  - intros n Hn Hne. unfold NOISE_THRESHOLD.
    do 6 (destruct n as [|n]; [simpl; lia|]). simpl in Hn. lia.
Defined.

Lemma totals_rev adc :
  length adc = Z.to_nat SENSOR_NUM ->
  value_total_from 0 (rev adc) = value_total_from 0 adc
  /\ weighted_total_from 0 (rev adc)
     = (SENSOR_NUM - 1) * HEUR_OFFSET * value_total_from 0 adc
       - weighted_total_from 0 adc.
Proof.
  intros H.
  destruct adc as [|a [|b [|c [|d [|e [|f [|g t]]]]]]]; try discriminate H.
  unfold value_total_from, weighted_total_from, qualifying_from.
  cbn [rev app indexed_from filter fst snd].
  destruct (a >? NOISE_THRESHOLD), (b >? NOISE_THRESHOLD),
    (c >? NOISE_THRESHOLD), (d >? NOISE_THRESHOLD),
    (e >? NOISE_THRESHOLD), (f >? NOISE_THRESHOLD);
    cbn [map Zsum fold_right fst snd];
    unfold SENSOR_NUM, HEUR_OFFSET; split; ring.
Qed.

Lemma mirrored_quotients w s :
  0 < s -> 0 <= w <= 5000 * s ->
  4999 <= w / s + (5000 * s - w) / s <= 5000
  /\ (w / s + (5000 * s - w) / s = 5000 <-> w mod s = 0).
Proof.
  intros Hs Hw.
  pose proof (Z.div_mod w s ltac:(lia)) as Hdm.
  pose proof (Z.mod_pos_bound w s Hs) as Hr.
  destruct (Z.eq_dec (w mod s) 0) as [E | E].
  - assert (Hq : (5000 * s - w) / s = 5000 - w / s).
    { symmetry. apply (Z.div_unique _ _ _ 0); [lia | nia]. }
    rewrite Hq. split; [lia|]. split; intros; [exact E | lia].
  - assert (Hq : (5000 * s - w) / s = 4999 - w / s).
    { symmetry. apply (Z.div_unique _ _ _ (s - w mod s)); [lia | nia]. }
    rewrite Hq. split; [lia|]. split; intros; [lia | contradiction].
Qed.

(** X8: mirroring the sensor bar mirrors the estimate around the centre up
    to the truncation of the division: for an on-track sensor vector the
    estimates of the vector and of its reverse sum to (N-1)*HEUR_OFFSET
    = 5000 when the division is exact and to 4999 otherwise. *)
Theorem mirrored_estimate (adc : list Z) (stored : Z) :
  SensorReading adc -> track_seen adc ->
  exists r r',
    read_qrt_line adc stored = Some r
    /\ read_qrt_line (rev adc) stored = Some r'
    /\ (SENSOR_NUM - 1) * HEUR_OFFSET - 1
       <= qrt_return r + qrt_return r'
       <= (SENSOR_NUM - 1) * HEUR_OFFSET
    /\ (qrt_return r + qrt_return r' = (SENSOR_NUM - 1) * HEUR_OFFSET
        <-> weighted_total_from 0 adc mod value_total_from 0 adc = 0).
Proof.
  intros Hadc Hseen.
  assert (Hadc' : SensorReading (rev adc)).
  { destruct Hadc as [Hlen Hall]. split.
    - now rewrite length_rev.
    - now apply Forall_rev. }
  assert (Hseen' : track_seen (rev adc)) by now apply Exists_rev.
  rewrite (read_qrt_line_seen adc stored Hadc Hseen).
  rewrite (read_qrt_line_seen (rev adc) stored Hadc' Hseen').
  do 2 eexists. split; [reflexivity|]. split; [reflexivity|].
  cbn [qrt_return]. unfold weighted_average.
  destruct (totals_rev adc (proj1 Hadc)) as [-> ->].
  pose proof (track_seen_total adc 0 (proj2 Hadc) Hseen) as Hpos.
  destruct (totals_bounds adc 0 (proj2 Hadc)) as [_ [W0 W1]];
    [lia | rewrite (proj1 Hadc); unfold SENSOR_NUM; lia |].
  change ((SENSOR_NUM - 1) * HEUR_OFFSET) with 5000 in *.
  unfold ON_TRACK_VALUE in Hpos.
  destruct (mirrored_quotients (weighted_total_from 0 adc)
              (value_total_from 0 adc)) as [Hsum Hiff]; [lia | lia |].
  split; [lia | exact Hiff].
Qed.

Lemma mirrored_estimate_witness :
  exists r r',
    read_qrt_line [300; 400; 0; 0; 0; 0] 0 = Some r
    /\ read_qrt_line (rev [300; 400; 0; 0; 0; 0]) 0 = Some r'
    /\ (SENSOR_NUM - 1) * HEUR_OFFSET - 1
       <= qrt_return r + qrt_return r'
       <= (SENSOR_NUM - 1) * HEUR_OFFSET
    /\ (qrt_return r + qrt_return r' = (SENSOR_NUM - 1) * HEUR_OFFSET
        <-> weighted_total_from 0 [300; 400; 0; 0; 0; 0]
            mod value_total_from 0 [300; 400; 0; 0; 0; 0] = 0).
Proof.
  apply (mirrored_estimate [300; 400; 0; 0; 0; 0] 0).
  - sensor_reading.
  - unfold track_seen, ON_TRACK_VALUE. apply Exists_cons_hd. lia.
Defined.

(** X9: a track-loss cycle that follows an on-track cycle resolves to the
    side of that last sighting: it returns 0 when the last estimate was
    strictly below MIDDLE_ERROR = 2500 and (N-1)*HEUR_OFFSET = 5000
    otherwise, so a line last seen exactly centred resolves to the high
    side; the stored estimate remains the last sighting. *)
Theorem loss_resolves_to_last_sighting (adc adc' : list Z) (stored : Z) :
  SensorReading adc -> track_seen adc -> track_lost adc' ->
  exists r r',
    read_qrt_line adc stored = Some r
    /\ read_qrt_line adc' (qrt_last_value r) = Some r'
    /\ qrt_return r'
       = (if qrt_return r <? MIDDLE_ERROR
          then 0
          else (SENSOR_NUM - 1) * HEUR_OFFSET)
    /\ qrt_last_value r' = qrt_return r.
Proof.
  intros Hadc Hseen Hlost.
  exists (mkQrt (weighted_average adc) (weighted_average adc)
            [(weighted_total_from 0 adc, value_total_from 0 adc)]).
  exists (mkQrt (boundary_estimate (weighted_average adc))
            (weighted_average adc) []).
  cbn [qrt_return qrt_last_value].
  split; [exact (read_qrt_line_seen adc stored Hadc Hseen)|].
  split; [exact (read_qrt_line_lost adc' (weighted_average adc) Hlost)|].
  split; reflexivity.
Qed.

Lemma loss_resolves_to_last_sighting_witness :
  exists r r',
    read_qrt_line [0; 0; 900; 900; 0; 0] 0 = Some r
    /\ read_qrt_line [0; 0; 0; 0; 0; 0] (qrt_last_value r) = Some r'
    /\ qrt_return r'
       = (if qrt_return r <? MIDDLE_ERROR
          then 0
          else (SENSOR_NUM - 1) * HEUR_OFFSET)
    /\ qrt_last_value r' = qrt_return r.
Proof.
  apply (loss_resolves_to_last_sighting
           [0; 0; 900; 900; 0; 0] [0; 0; 0; 0; 0; 0] 0).
  - sensor_reading.
  - unfold track_seen, ON_TRACK_VALUE.
    apply Exists_cons_tl, Exists_cons_tl, Exists_cons_hd. lia.
  - all_below_on_track.
Defined.

(** ** The controller over whole runs *)

Lemma read_qrt_line_return_range adc lv :
  SensorReading adc ->
  exists r, read_qrt_line adc lv = Some r
    /\ 0 <= qrt_return r <= (SENSOR_NUM - 1) * HEUR_OFFSET.
Proof.
  intros Hadc. destruct (track_seen_or_lost adc) as [Hseen | Hlost].
  - rewrite (read_qrt_line_seen adc lv Hadc Hseen).
    eexists; split; [reflexivity|]. cbn [qrt_return].
    now apply weighted_average_range.
  - rewrite (read_qrt_line_lost adc lv Hlost).
    eexists; split; [reflexivity|]. cbn [qrt_return].
    unfold boundary_estimate.
    change ((SENSOR_NUM - 1) * HEUR_OFFSET / 2) with 2500.
    change ((SENSOR_NUM - 1) * HEUR_OFFSET) with 5000.
    destruct (lv <? 2500); lia.
Qed.

Lemma position_error_small ret :
  0 <= ret <= 5000 ->
  narrow_position ret = ret
  /\ position_error (narrow_position ret) = ret - 2500.
Proof.
  intros H. unfold position_error, narrow_position, MIDDLE_ERROR.
  rewrite (to_uint16_small ret) by lia.
  rewrite (to_uint16_small 2500) by lia.
  split; [reflexivity|].
  unfold to_int16, to_uint16.
  rewrite Zplus_mod_idemp_l.
  rewrite Z.mod_small by lia. lia.
Qed.

(** What one cycle on a sensor vector does to the statics. *)
Lemma handle_move_step adc st :
  SensorReading adc ->
  exists c,
    handle_move adc st = Some c
    /\ 0 <= cy_position c <= 5000
    /\ cy_error c = cy_position c - 2500
    /\ integral (cy_statics c)
       = to_int32 ((if reset_integral st =? INTEGRAL_RESET_ITER
                    then 0 else integral st) + cy_error c)
    /\ reset_integral (cy_statics c)
       = to_int16 ((if reset_integral st =? INTEGRAL_RESET_ITER
                    then 0 else reset_integral st) + 1).
Proof.
  intros Hadc.
  destruct (read_qrt_line_return_range adc (last_value st) Hadc)
    as (r & Hr & Hret).
  change ((SENSOR_NUM - 1) * HEUR_OFFSET) with 5000 in Hret.
  destruct (position_error_small (qrt_return r) Hret) as [Hpos Herr].
  eexists. split; [exact (handle_move_eq adc st r Hr)|].
  cbn [cy_position cy_error cy_statics integral reset_integral].
  rewrite Herr, Hpos. repeat split; lia.
Qed.

(** X10: on every sensor vector and from any statics, a control cycle
    completes (no division by zero), its position is in [0, 5000], and its
    error is exactly position - MIDDLE_ERROR, between -2500 and 2500: the
    16-bit conversions on the way lose nothing. *)
Theorem cycle_error_is_exact (adc : list Z) (st : statics) :
  SensorReading adc ->
  exists c,
    handle_move adc st = Some c
    /\ 0 <= cy_position c <= (SENSOR_NUM - 1) * HEUR_OFFSET
    /\ cy_error c = cy_position c - MIDDLE_ERROR
    /\ - MIDDLE_ERROR <= cy_error c <= MIDDLE_ERROR.
Proof.
  intros Hadc.
  destruct (handle_move_step adc st Hadc) as (c & Hc & Hpos & Herr & _).
  exists c. change ((SENSOR_NUM - 1) * HEUR_OFFSET) with 5000.
  unfold MIDDLE_ERROR. repeat split; try assumption; lia.
Qed.

Lemma cycle_error_is_exact_witness :
  exists c,
    handle_move [0; 0; 0; 0; 300; 1023]
      {| last_value := 77; last_error := 0; integral := -9000;
         reset_integral := 31 |} = Some c
    /\ 0 <= cy_position c <= (SENSOR_NUM - 1) * HEUR_OFFSET
    /\ cy_error c = cy_position c - MIDDLE_ERROR
    /\ - MIDDLE_ERROR <= cy_error c <= MIDDLE_ERROR.
Proof.
  apply cycle_error_is_exact. sensor_reading.
Defined.

Lemma integral_bounded_step adc st :
  SensorReading adc -> integral_bounded st ->
  exists c,
    handle_move adc st = Some c
    /\ integral_bounded (cy_statics c)
    /\ integral (cy_statics c)
       = (if reset_integral st =? INTEGRAL_RESET_ITER
          then 0 else integral st) + cy_error c.
Proof.
  intros Hadc [Hcnt Hint].
  destruct (handle_move_step adc st Hadc)
    as (c & Hc & Hpos & Herr & Hi & Hr).
  exists c. split; [exact Hc|].
  unfold integral_bounded. rewrite Hi, Hr.
  unfold INTEGRAL_RESET_ITER, MIDDLE_ERROR in *.
  destruct (reset_integral st =? 125) eqn:E.
  - rewrite to_int32_small, to_int16_small by lia. lia.
  - rewrite to_int32_small, to_int16_small by lia. lia.
Qed.

Lemma main_loop_bounded hist :
  forall st,
    Forall SensorReading hist -> integral_bounded st ->
    exists st', main_loop hist st = Some st' /\ integral_bounded st'.
Proof.
  induction hist as [|adc rest IH]; intros st Hall Hst.
  - exists st. split; [reflexivity | exact Hst].
  - inversion Hall as [|? ? Hadc Hrest]; subst.
    destruct (integral_bounded_step adc st Hadc Hst) as (c & Hc & Hb & _).
    cbn [main_loop]. rewrite Hc. now apply IH.
Qed.

(** X11: along every run of the control loop on sensor vectors the
    accumulator stays within MIDDLE_ERROR times the cycle counter, hence
    within 125 * 2500 = 312500 in magnitude: the periodic reset keeps the
    32-bit [long] far from overflow, and the loop never stops on a
    fault. *)
Theorem integral_stays_bounded (hist : list (list Z)) :
  Forall SensorReading hist ->
  exists st,
    main_loop hist statics_init = Some st
    /\ Z.abs (integral st) <= MIDDLE_ERROR * reset_integral st
    /\ Z.abs (integral st) <= 312500
    /\ 312500 < 2 ^ 31.
Proof.
  intros Hall.
  destruct (main_loop_bounded hist statics_init Hall) as (st & Hrun & Hb).
  - unfold integral_bounded, statics_init, INTEGRAL_RESET_ITER, MIDDLE_ERROR.
    cbn [reset_integral integral]. lia.
  - exists st. destruct Hb as [Hcnt Hint].
    unfold INTEGRAL_RESET_ITER, MIDDLE_ERROR in *.
    repeat split; try assumption; lia.
Qed.

Lemma integral_stays_bounded_witness :
  exists st,
    main_loop (repeat [0; 0; 0; 0; 0; 900] 300) statics_init = Some st
    /\ Z.abs (integral st) <= MIDDLE_ERROR * reset_integral st
    /\ Z.abs (integral st) <= 312500
    /\ 312500 < 2 ^ 31.
Proof.
  apply integral_stays_bounded.
  apply Forall_forall. intros adc Hin. apply repeat_spec in Hin. subst adc.
  sensor_reading.
Defined.

(** X12: the accumulation itself is exact: in every cycle that follows a
    run on sensor vectors the new accumulator is the old one (or 0, when
    the counter has reached INTEGRAL_RESET_ITER) plus the cycle's error,
    with no wrap-around in the 32-bit addition. *)
Theorem integral_accumulates_exactly (hist : list (list Z)) (adc : list Z) :
  Forall SensorReading hist -> SensorReading adc ->
  exists st c,
    main_loop hist statics_init = Some st
    /\ handle_move adc st = Some c
    /\ integral (cy_statics c)
       = (if reset_integral st =? INTEGRAL_RESET_ITER
          then 0 else integral st) + cy_error c.
Proof.
  intros Hall Hadc.
  destruct (main_loop_bounded hist statics_init Hall) as (st & Hrun & Hb).
  - unfold integral_bounded, statics_init, INTEGRAL_RESET_ITER, MIDDLE_ERROR.
    cbn [reset_integral integral]. lia.
  - destruct (integral_bounded_step adc st Hadc Hb) as (c & Hc & _ & Hacc).
    exists st, c. repeat split; assumption.
Qed.

Lemma integral_accumulates_exactly_witness :
  exists st c,
    main_loop [[0; 0; 0; 0; 0; 900]; [0; 0; 0; 0; 900; 0]] statics_init
    = Some st
    /\ handle_move [900; 0; 0; 0; 0; 0] st = Some c
    /\ integral (cy_statics c)
       = (if reset_integral st =? INTEGRAL_RESET_ITER
          then 0 else integral st) + cy_error c.
Proof.
  apply integral_accumulates_exactly.
  - repeat (apply Forall_cons; [sensor_reading|]). apply Forall_nil.
  - sensor_reading.
Defined.

(** X13: the cycle counter only depends on the number of calls: after n
    calls it is 0 for n = 0 and ((n - 1) mod INTEGRAL_RESET_ITER) + 1
    otherwise, so it runs 1, 2, ..., 125, 1, 2, ... and never passes
    INTEGRAL_RESET_ITER (the equality test of the reset cannot be
    missed). *)
Theorem counter_is_periodic (hist : list (list Z)) :
  Forall SensorReading hist ->
  exists st,
    main_loop hist statics_init = Some st
    /\ reset_integral st
       = (if Z.of_nat (length hist) =? 0
          then 0
          else (Z.of_nat (length hist) - 1) mod INTEGRAL_RESET_ITER + 1)
    /\ 0 <= reset_integral st <= INTEGRAL_RESET_ITER.
Proof.
  intros Hall.
  destruct (main_loop_counter hist Hall) as (st & Hrun & Hcnt).
  exists st. split; [exact Hrun|]. split; [exact Hcnt|].
  rewrite Hcnt. unfold counter_after, INTEGRAL_RESET_ITER.
  destruct (Z.of_nat (length hist) =? 0); [lia|].
  pose proof (Z.mod_pos_bound (Z.of_nat (length hist) - 1) 125 ltac:(lia)).
  lia.
Qed.

Lemma counter_is_periodic_witness :
  exists st,
    main_loop (repeat [0; 0; 900; 900; 0; 0] 126) statics_init = Some st
    /\ reset_integral st
       = (if Z.of_nat (length (repeat [0; 0; 900; 900; 0; 0] 126)) =? 0
          then 0
          else (Z.of_nat (length (repeat [0; 0; 900; 900; 0; 0] 126)) - 1)
               mod INTEGRAL_RESET_ITER + 1)
    /\ 0 <= reset_integral st <= INTEGRAL_RESET_ITER.
Proof.
  apply counter_is_periodic.
  apply Forall_forall. intros adc Hin. apply repeat_spec in Hin. subst adc.
  sensor_reading.
Defined.

(** ** Timer and port set-up *)

Lemma testbit_to_uint8 z j :
  0 <= j -> Z.testbit (to_uint8 z) j = (j <? 8) && Z.testbit z j.
Proof.
  intros Hj. unfold to_uint8.
  destruct (j <? 8) eqn:E.
  - rewrite Z.mod_pow2_bits_low by lia. reflexivity.
  - rewrite Z.mod_pow2_bits_high by lia. reflexivity.
Qed.

Lemma testbit_one_shifted n j :
  0 <= n -> 0 <= j -> Z.testbit (Z.shiftl 1 n) j = (j =? n).
Proof.
  intros Hn Hj. rewrite Z.shiftl_1_l, Z.pow2_bits_eqb by lia.
  apply Z.eqb_sym.
Qed.

Lemma testbit_or_bit reg n j :
  0 <= n -> 0 <= j < 8 ->
  Z.testbit (or_bit reg n) j = Z.testbit reg j || (j =? n).
Proof.
  intros Hn Hj. unfold or_bit.
  rewrite testbit_to_uint8, Z.lor_spec, testbit_one_shifted by lia.
  assert (E : (j <? 8) = true) by lia. rewrite E. reflexivity.
Qed.

Lemma testbit_clear_bit reg n j :
  0 <= n -> 0 <= j < 8 ->
  Z.testbit (clear_bit reg n) j = Z.testbit reg j && negb (j =? n).
Proof.
  intros Hn Hj. unfold clear_bit.
  rewrite testbit_to_uint8, Z.land_spec, Z.lnot_spec, testbit_one_shifted
    by lia.
  assert (E : (j <? 8) = true) by lia. rewrite E. reflexivity.
Qed.

(** X14: [engine_init] stops both motors (all four compare registers are
    0), makes the four motor pins outputs and drives them low, and leaves
    every other bit of DDRD, PORTD, DDRB and PORTB as it was. *)
Theorem engine_init_touches_motor_pins_only (h : io_bits) (t : timer_io) :
  port_bits_valid h ->
  let t' := engine_init h t in
  ocr t' = {| OCR0A := 0; OCR0B := 0; OCR2A := 0; OCR2B := 0 |}
  /\ forall j, 0 <= j < 8 ->
       Z.testbit (DDRD t') j
       = Z.testbit (DDRD t) j || (j =? PD6 h) || (j =? PD7 h)
       /\ Z.testbit (PORTD t') j
          = Z.testbit (PORTD t) j && negb (j =? PD6 h) && negb (j =? PD7 h)
       /\ Z.testbit (DDRB t') j
          = Z.testbit (DDRB t) j || (j =? PB3 h) || (j =? PB4 h)
       /\ Z.testbit (PORTB t') j
          = Z.testbit (PORTB t) j && negb (j =? PB3 h) && negb (j =? PB4 h).
Proof.
  unfold port_bits_valid, bit_number. intros (H6 & H7 & H3 & H4).
  cbv zeta. split; [reflexivity|].
  intros j Hj. unfold engine_init. cbn [DDRD PORTD DDRB PORTB].
  rewrite !testbit_or_bit, !testbit_clear_bit by lia.
  repeat split; reflexivity.
Qed.

Lemma engine_init_touches_motor_pins_only_witness :
  let h := mkIoBits 7 6 5 4 1 0 7 6 5 4 1 0 1 1 6 7 3 4 in
  let t := mkTimerIo 0 0 0 0 1 255 128 24 (mkPwm 9 9 9 9) in
  let t' := engine_init h t in
  (DDRD t', PORTD t', DDRB t', PORTB t') = (193, 63, 152, 0)
  /\ ocr t' = {| OCR0A := 0; OCR0B := 0; OCR2A := 0; OCR2B := 0 |}
  /\ forall j, 0 <= j < 8 ->
       Z.testbit (DDRD t') j
       = Z.testbit (DDRD t) j || (j =? PD6 h) || (j =? PD7 h)
       /\ Z.testbit (PORTD t') j
          = Z.testbit (PORTD t) j && negb (j =? PD6 h) && negb (j =? PD7 h)
       /\ Z.testbit (DDRB t') j
          = Z.testbit (DDRB t) j || (j =? PB3 h) || (j =? PB4 h)
       /\ Z.testbit (PORTB t') j
          = Z.testbit (PORTB t) j && negb (j =? PB3 h) && negb (j =? PB4 h).
Proof.
  intros h t t'. split; [reflexivity|].
  apply (engine_init_touches_motor_pins_only h t).
  unfold port_bits_valid, bit_number. simpl. lia.
Defined.

(** X15: the four timer control registers are overwritten, not updated:
    after [engine_init] bit j of TCCR0A (TCCR2A) is set exactly when j is
    one of the six bit numbers the function names for it, and TCCR0B
    (TCCR2B) holds the single bit CS01 (CS21), whatever the registers held
    before. *)
Theorem engine_init_sets_timer_modes (h : io_bits) (t : timer_io) :
  timer_bits_valid h ->
  let t' := engine_init h t in
  (forall j, 0 <= j < 8 ->
     Z.testbit (TCCR0A t') j
     = existsb (Z.eqb j)
         [COM0A1 h; COM0A0 h; COM0B1 h; COM0B0 h; WGM01 h; WGM00 h]
     /\ Z.testbit (TCCR2A t') j
        = existsb (Z.eqb j)
            [COM2A1 h; COM2A0 h; COM2B1 h; COM2B0 h; WGM21 h; WGM20 h])
  /\ TCCR0B t' = 2 ^ CS01 h
  /\ TCCR2B t' = 2 ^ CS21 h.
Proof.
  unfold timer_bits_valid, bit_number. intros Hall.
  repeat match goal with
         | H : Forall _ (_ :: _) |- _ =>
             let Hx := fresh "Hb" in
             apply Forall_cons_iff in H; destruct H as [Hx H]
         end.
  cbv zeta. unfold engine_init. cbn [TCCR0A TCCR0B TCCR2A TCCR2B].
  split; [|split].
  - intros j Hj.
    rewrite !testbit_to_uint8 by lia.
    rewrite !Z.lor_spec, !testbit_to_uint8 by lia.
    rewrite !Z.lor_spec, !testbit_one_shifted by lia.
    assert (E : (j <? 8) = true) by lia. rewrite E.
    cbn [existsb andb]. rewrite !orb_false_r, !orb_assoc.
    split; reflexivity.
  - rewrite Z.shiftl_1_l. apply to_uint8_small.
    split; [apply Z.pow_nonneg; lia|].
    change 256 with (2 ^ 8). apply Z.pow_lt_mono_r; lia.
  - rewrite Z.shiftl_1_l. apply to_uint8_small.
    split; [apply Z.pow_nonneg; lia|].
    change 256 with (2 ^ 8). apply Z.pow_lt_mono_r; lia.
Qed.

Lemma engine_init_sets_timer_modes_witness :
  let h := mkIoBits 7 6 5 4 1 0 7 6 5 4 1 0 1 1 6 7 3 4 in
  let t := mkTimerIo 12 34 56 78 0 0 0 0 (mkPwm 0 0 0 0) in
  let t' := engine_init h t in
  (TCCR0A t', TCCR2A t') = (243, 243)
  /\ (forall j, 0 <= j < 8 ->
        Z.testbit (TCCR0A t') j
        = existsb (Z.eqb j)
            [COM0A1 h; COM0A0 h; COM0B1 h; COM0B0 h; WGM01 h; WGM00 h]
        /\ Z.testbit (TCCR2A t') j
           = existsb (Z.eqb j)
               [COM2A1 h; COM2A0 h; COM2B1 h; COM2B0 h; WGM21 h; WGM20 h])
  /\ TCCR0B t' = 2 ^ CS01 h
  /\ TCCR2B t' = 2 ^ CS21 h.
Proof.
  intros h t t'. split; [reflexivity|].
  apply (engine_init_sets_timer_modes h t).
  unfold timer_bits_valid, bit_number. simpl. repeat constructor; lia.
Defined.
